(** * Speaker-encoder inference: partial-utterance geometry and aggregation

    A shallow embedding of [src/sv2tts/encoder/inference.py]
    ([compute_partial_slices], [embed_frames_batch], [embed_utterance]) and of
    the constants of [src/SV2TTS/params.py].

    Numeric model.  Python [int] is [Z].  The Python floats [overlap] and
    [min_pad_coverage], and every float computed from them or from a true
    division of integers, are carried as exact rationals [Q]: binary64
    rounding, overflow of an [int] that does not fit a float, and the width
    of numpy's integers are not modelled (for integers below 2^53 the
    rounded quotient by [samples_per_frame] has the ceiling of the exact
    one).  What a division by zero does is modelled: Python's [int / int]
    raises, numpy's scalar division yields an infinity or a NaN.  Waveform
    samples and embedding coordinates (float32 in the source) are real
    numbers [R]. *)

From Stdlib Require Import ZArith QArith Qround List Bool Sorted Reals Psatz.
From Stdlib Require Import Permutation.
From Stdlib Require String.
Import String.StringSyntax.
Delimit Scope string_scope with string.
Import ListNotations.
Local Open Scope Z_scope.

(** ** Constants of [params.py]

    [inference.py] reads [sampling_rate] and [mel_window_step] as module
    constants; their values are those of [params.py]. *)
Module Params.
Definition mel_window_length : Z := 25.
Definition mel_window_step : Z := 10.
Definition mel_n_channels : Z := 40.
Definition partial_utterance_length : Z := 160.
Definition sampling_rate : Z := 16000.
Definition model_embedding_size : Z := 256.
End Params.

(** Modelled from the spec: [encoder/params_data.py], which [inference.py]
    star-imports, is not among the sources.  The default of
    [partial_utterance_n_frames] is its [partials_n_frames]; the spec fixes
    "partial-utterance length = 160 frames", the value [params.py] names
    [partial_utterance_length]. *)
Definition partials_n_frames : Z := Params.partial_utterance_length.

(** ** Python and numpy primitives *)

(** The exceptions the modelled code can raise; [ModelNotLoaded] is the
    [Exception] of [embed_frames_batch]. *)
Inductive exn : Type :=
| AssertionError
| ZeroDivisionError
| ValueError
| IndexError
| ModelNotLoaded.

Definition result (A : Type) : Type := (exn + A)%type.

Definition ret {A : Type} (a : A) : result A := inr a.
Definition raise {A : Type} (e : exn) : result A := inl e.
Definition bind {A B : Type} (m : result A) (k : A -> result B) : result B :=
  match m with
  | inl e => inl e
  | inr a => k a
  end.

Notation "x <- m ;; k" := (bind m (fun x => k))
  (at level 61, m at next level, right associativity).
Notation "' p <- m ;; k" := (bind m (fun x => let p := x in k))
  (at level 61, p pattern, m at next level, right associativity).

(** [assert b] *)
Definition py_assert (b : bool) : result unit :=
  if b then ret tt else raise AssertionError.

(** [x < y] and [x <= y] on floats. *)
Definition Qltb (x y : Q) : bool :=
  match (x ?= y)%Q with Lt => true | _ => false end.
Definition Qleb (x y : Q) : bool :=
  match (x ?= y)%Q with Gt => false | _ => true end.

(** [a / b] on Python integers: true division, [ZeroDivisionError] at 0. *)
Definition py_truediv (a b : Z) : result Q :=
  if b =? 0 then raise ZeroDivisionError
  else ret (inject_Z a / inject_Z b)%Q.

(** [int(x)] on a float: truncation toward zero. *)
Definition py_int (x : Q) : Z := Z.quot (Qnum x) (Zpos (Qden x)).

(** [np.ceil]: the least integer not below [x], as a float. *)
Definition np_ceil (x : Q) : Q := inject_Z (Qceiling x).

(** [np.round] with no decimals: the nearest integer, a tie going to the
    even neighbour. *)
Definition np_rint (x : Q) : Z :=
  let f := Qfloor x in
  match (x - inject_Z f ?= 1 # 2)%Q with
  | Lt => f
  | Gt => f + 1
  | Eq => if Z.even f then f else f + 1
  end.
Definition np_round (x : Q) : Q := inject_Z (np_rint x).

(** [len(range(start, stop, step))], as CPython computes it. *)
Definition range_len (start stop step : Z) : Z :=
  if 0 <? step then
    (if start <? stop then (stop - start - 1) / step + 1 else 0)
  else
    (if stop <? start then (start - stop - 1) / (- step) + 1 else 0).

(** [range(start, stop, step)]; a zero step is a [ValueError]. *)
Definition py_range (start stop step : Z) : result (list Z) :=
  if step =? 0 then raise ValueError
  else ret (map (fun k => start + Z.of_nat k * step)
                (seq 0 (Z.to_nat (range_len start stop step)))).

(** [slice(start, stop)]. *)
Record slice : Type := mkslice { start : Z; stop : Z }.

(** [xs[-1]]: [IndexError] on an empty list. *)
Definition getitem_last {A : Type} (xs : list A) : result A :=
  match rev xs with
  | [] => raise IndexError
  | x :: _ => ret x
  end.

(** [xs[:-1]]. *)
Definition drop_last {A : Type} (xs : list A) : list A := removelast xs.

(** A numpy float64 scalar: the quotient of two numpy integers is finite,
    or, when the divisor is zero, an infinity or a NaN (numpy warns and does
    not raise). *)
Inductive npfloat : Type :=
| NFin (q : Q)
| NPosInf
| NNegInf
| NNan.

Definition np_true_divide (a b : Z) : npfloat :=
  if b =? 0 then
    (if 0 <? a then NPosInf else if a <? 0 then NNegInf else NNan)
  else NFin (inject_Z a / inject_Z b)%Q.

(** [x < c] for a numpy scalar [x] and a finite Python float [c]. *)
Definition np_lt (x : npfloat) (c : Q) : bool :=
  match x with
  | NFin q => Qltb q c
  | NNegInf => true
  | NPosInf | NNan => false
  end.

(** ** [compute_partial_slices] *)
Section Geometry.
(** The module constants of the mel filterbank, read by the function. *)
Variables sampling_rate mel_window_step : Z.

(** [samples_per_frame = int((sampling_rate * mel_window_step / 1000))] *)
Definition samples_per_frame_cfg : Z :=
  py_int (inject_Z (sampling_rate * mel_window_step) / inject_Z 1000)%Q.

(** [n_frames = int(np.ceil((n_samples + 1) / samples_per_frame))] *)
Definition n_frames_cfg (n_samples : Z) : result Z :=
  q <- py_truediv (n_samples + 1) samples_per_frame_cfg ;;
  ret (py_int (np_ceil q)).

(** [frame_step = max(int(np.round(partial_utterance_n_frames * (1 - overlap))), 1)] *)
Definition frame_step_of (partial_utterance_n_frames : Z) (overlap : Q) : Z :=
  Z.max (py_int (np_round (inject_Z partial_utterance_n_frames * (1 - overlap))%Q)) 1.

(** [steps = max(1, n_frames - partial_utterance_n_frames + frame_step + 1)] *)
Definition steps_of (n_frames partial_utterance_n_frames frame_step : Z) : Z :=
  Z.max 1 (n_frames - partial_utterance_n_frames + frame_step + 1).

(** One iteration of the loop: [mel_range = np.array([i, i + p])],
    [wav_range = mel_range * samples_per_frame], both appended as slices. *)
Definition loop_body (partial_utterance_n_frames : Z)
    (acc : list slice * list slice) (i : Z) : list slice * list slice :=
  let '(wav_slices, mel_slices) := acc in
  let mel_range := (i, i + partial_utterance_n_frames) in
  let wav_range := (fst mel_range * samples_per_frame_cfg,
                    snd mel_range * samples_per_frame_cfg) in
  let mel_slices := mel_slices ++ [mkslice (fst mel_range) (snd mel_range)] in
  let wav_slices := wav_slices ++ [mkslice (fst wav_range) (snd wav_range)] in
  (wav_slices, mel_slices).

(** The slices the loop has built when it ends: the plan before the
    tail-coverage check. *)
Definition enumerate_slices_cfg (n_samples partial_utterance_n_frames : Z)
    (overlap : Q) : result (list slice * list slice) :=
  n_frames <- n_frames_cfg n_samples ;;
  let frame_step := frame_step_of partial_utterance_n_frames overlap in
  let steps := steps_of n_frames partial_utterance_n_frames frame_step in
  r <- py_range 0 steps frame_step ;;
  ret (fold_left (loop_body partial_utterance_n_frames) r ([], [])).

(** [coverage = (n_samples - last.start) / (last.stop - last.start)] *)
Definition coverage (n_samples : Z) (last_wav_range : slice) : npfloat :=
  np_true_divide (n_samples - start last_wav_range)
                 (stop last_wav_range - start last_wav_range).

(** The tail-coverage check on the enumerated slices. *)
Definition tail_check (n_samples : Z) (min_pad_coverage : Q)
    (plan : list slice * list slice) : result (list slice * list slice) :=
  let '(wav_slices, mel_slices) := plan in
  last_wav_range <- getitem_last wav_slices ;;
  if np_lt (coverage n_samples last_wav_range) min_pad_coverage
     && (1 <? Z.of_nat (length mel_slices))
  then ret (drop_last wav_slices, drop_last mel_slices)
  else ret (wav_slices, mel_slices).

Definition compute_partial_slices_cfg (n_samples partial_utterance_n_frames : Z)
    (min_pad_coverage overlap : Q) : result (list slice * list slice) :=
  _ <- py_assert (Qleb 0 overlap && Qltb overlap 1) ;;
  _ <- py_assert (Qltb 0 min_pad_coverage && Qleb min_pad_coverage 1) ;;
  plan <- enumerate_slices_cfg n_samples partial_utterance_n_frames overlap ;;
  tail_check n_samples min_pad_coverage plan.
End Geometry.

(** The function as the module has it, with the constants of [params.py]. *)
Definition samples_per_frame : Z :=
  samples_per_frame_cfg Params.sampling_rate Params.mel_window_step.
Definition n_frames (n_samples : Z) : result Z :=
  n_frames_cfg Params.sampling_rate Params.mel_window_step n_samples.
Definition compute_partial_slices :=
  compute_partial_slices_cfg Params.sampling_rate Params.mel_window_step.

(** The keyword defaults: [min_pad_coverage=0.75], [overlap=0.5]. *)
Definition default_min_pad_coverage : Q := 3 # 4.
Definition default_overlap : Q := 1 # 2.

(** ** The shape of a plan *)

(** The mel slice and the waveform slice of the [k]-th partial utterance,
    for a hop of [frame_step] frames. *)
Definition mel_at (p frame_step : Z) (k : nat) : slice :=
  mkslice (Z.of_nat k * frame_step) (Z.of_nat k * frame_step + p).
Definition wav_at (spf p frame_step : Z) (k : nat) : slice :=
  mkslice (Z.of_nat k * frame_step * spf) ((Z.of_nat k * frame_step + p) * spf).

(** A plan of [m] partial utterances. *)
Definition plan_of (spf p frame_step : Z) (m : nat) : list slice * list slice :=
  (map (wav_at spf p frame_step) (seq 0 m), map (mel_at p frame_step) (seq 0 m)).

(** The number of slices the loop builds, for a positive
    [samples_per_frame]: [len(range(0, steps, frame_step))]. *)
Definition n_enumerated (sampling_rate mel_window_step n_samples p : Z)
    (overlap : Q) : nat :=
  Z.to_nat (range_len 0
    (steps_of (- ((- (n_samples + 1))
                  / samples_per_frame_cfg sampling_rate mel_window_step))
              p (frame_step_of p overlap))
    (frame_step_of p overlap)).

(** ** [embed_frames_batch] and [embed_utterance] *)

Definition waveform : Type := list R.
(** A mel spectrogram: frames, each a list of channels. *)
Definition spectrogram : Type := list (list R).
Definition embedding : Type := list R.

(** [**kwargs], handed on to [compute_partial_slices]: each keyword is given
    or left to its default. *)
Record kwargs : Type := mkkwargs {
  kw_partial_utterance_n_frames : option Z;
  kw_min_pad_coverage : option Q;
  kw_overlap : option Q
}.

Definition or_default {A : Type} (o : option A) (d : A) : A :=
  match o with Some a => a | None => d end.

(** [compute_partial_slices(n_samples, **kwargs)] *)
Definition compute_partial_slices_kw (n_samples : Z) (kw : kwargs)
  : result (list slice * list slice) :=
  compute_partial_slices n_samples
    (or_default (kw_partial_utterance_n_frames kw) partials_n_frames)
    (or_default (kw_min_pad_coverage kw) default_min_pad_coverage)
    (or_default (kw_overlap kw) default_overlap).

(** The calls a run makes, in order. *)
Inductive event : Type :=
| CallWavToMel (wav : waveform)
| CallForward (frames_batch : list spectrogram)
| CallComputePartialSlices (n_samples : Z) (kw : kwargs)
| CallPad (wav : waveform) (width : Z)
| CallMean (a : list embedding)
| CallNorm (v : embedding).

(** Arrays live in a store and are passed by reference; a run threads the
    store and the trace of its calls. *)
Definition loc : Type := nat.
Record state : Type := mkstate { heap : list waveform; trace : list event }.

Definition M (A : Type) : Type := state -> result A * state.

Definition retM {A : Type} (a : A) : M A := fun st => (ret a, st).
Definition raiseM {A : Type} (e : exn) : M A := fun st => (raise e, st).
Definition bindM {A B : Type} (m : M A) (k : A -> M B) : M B :=
  fun st =>
    match m st with
    | (inl e, st') => (inl e, st')
    | (inr a, st') => k a st'
    end.
Definition liftM {A : Type} (r : result A) : M A := fun st => (r, st).

Notation "x <~ m ;; k" := (bindM m (fun x => k))
  (at level 61, m at next level, right associativity).
Notation "' p <~ m ;; k" := (bindM m (fun x => let p := x in k))
  (at level 61, p pattern, m at next level, right associativity).

Definition emit (e : event) : M unit :=
  fun st => (ret tt, mkstate (heap st) (trace st ++ [e])).
Definition deref (l : loc) : M waveform :=
  fun st => (ret (nth l (heap st) []), st).
Definition alloc (a : waveform) : M loc :=
  fun st => (ret (length (heap st)), mkstate (heap st ++ [a]) (trace st)).

(** [len(wav)] *)
Definition py_len (wav : loc) : M Z :=
  w <~ deref wav ;; retM (Z.of_nat (length w)).

(** [np.pad(wav, (0, width), "constant")]: a new array, the old one
    followed by [width] zeros; a negative width is a [ValueError]. *)
Definition np_pad (wav : loc) (width : Z) : M loc :=
  w <~ deref wav ;;
  _ <~ emit (CallPad w width) ;;
  if width <? 0 then raiseM ValueError
  else alloc (w ++ repeat 0%R (Z.to_nat width)).

(** [frames[s]] along the first axis, with Python's clipping of the bounds
    and its reading of a negative bound from the end. *)
Definition slice_bound (len i : Z) : Z :=
  if i <? 0 then Z.max (i + len) 0 else Z.min i len.
Definition getslice {A : Type} (xs : list A) (s : slice) : list A :=
  let len := Z.of_nat (length xs) in
  let lo := slice_bound len (start s) in
  let hi := slice_bound len (stop s) in
  firstn (Z.to_nat (hi - lo)) (skipn (Z.to_nat lo) xs).

(** [np.array([...])] of spectrogram slices, as the model takes it: the
    slices must have the same number of frames. *)
Definition np_array (xs : list spectrogram) : result (list spectrogram) :=
  match xs with
  | [] => ret []
  | x :: rest =>
      if forallb (fun y => Nat.eqb (length y) (length x)) rest then ret xs
      else raise ValueError
  end.

(** [xs[0]] *)
Definition getitem0 {A : Type} (xs : list A) : result A :=
  match xs with
  | [] => raise IndexError
  | x :: _ => ret x
  end.

Definition Rsum (xs : list R) : R := fold_right Rplus 0%R xs.

(** [np.mean(a, axis=0)] of a rows-by-columns array: per column, the sum
    over the rows divided by the number of rows. *)
Definition mean_axis0 (a : list embedding) : embedding :=
  map (fun j => (Rsum (map (fun row => nth j row 0%R) a) / INR (length a))%R)
      (seq 0 (length (hd [] a))).

(** [np.linalg.norm(v, 2)] of a vector. *)
Definition linalg_norm (v : embedding) : R :=
  sqrt (Rsum (map (fun x => (x * x)%R) v)).

(** [v / c] for an array [v] and a scalar [c]. *)
Definition array_div (v : embedding) (c : R) : embedding :=
  map (fun x => (x / c)%R) v.

(** What [embed_utterance] returns: [embed], or the triple
    [embed, partial_embeds, wave_slices] whose last two may be [None]. *)
Inductive utterance_result : Type :=
| Embed (embed : embedding)
| EmbedPartials (embed : embedding)
    (partial_embeds : option (list embedding))
    (wave_slices : option (list slice)).


Section Encoder.
(** [audio.wav_to_mel_filterbank], of the [audio] module that is not
    among the sources: a function of the waveform. *)
Variable wav_to_mel_filterbank : waveform -> spectrogram.
(** The global [_model]: [None] until [load_model] ran, then a
    [SpeakerEncoder] whose [forward] maps a batch of spectrograms to a
    batch of embeddings. *)
Variable _model : option (list spectrogram -> list embedding).

Definition call_wav_to_mel_filterbank (wav : loc) : M spectrogram :=
  w <~ deref wav ;;
  _ <~ emit (CallWavToMel w) ;;
  retM (wav_to_mel_filterbank w).

Definition embed_frames_batch (frames_batch : list spectrogram)
  : M (list embedding) :=
  match _model with
  | None => raiseM ModelNotLoaded
  | Some forward =>
      _ <~ emit (CallForward frames_batch) ;;
      retM (forward frames_batch)
  end.

Definition np_mean_axis0 (a : list embedding) : M embedding :=
  _ <~ emit (CallMean a) ;; retM (mean_axis0 a).

Definition np_linalg_norm (v : embedding) : M R :=
  _ <~ emit (CallNorm v) ;; retM (linalg_norm v).

(** Lines 122-127: the whole utterance as a single batch element. *)
Definition embed_whole (wav : loc) (return_partials : bool)
  : M utterance_result :=
  frames <~ call_wav_to_mel_filterbank wav ;;
  embeds <~ embed_frames_batch [frames] ;;
  embed <~ liftM (getitem0 embeds) ;;
  if return_partials then retM (EmbedPartials embed None None)
  else retM (Embed embed).

(** Lines 130-133: where to split, and the padding; yields the waveform
    to go on with and the two slice lists. *)
Definition split_and_pad (wav : loc) (kw : kwargs)
  : M (loc * list slice * list slice) :=
  n <~ py_len wav ;;
  _ <~ emit (CallComputePartialSlices n kw) ;;
  '(wave_slices, mel_slices) <~ liftM (compute_partial_slices_kw n kw) ;;
  last <~ liftM (getitem_last wave_slices) ;;
  let max_wave_length := stop last in
  wav <~ (if n <=? max_wave_length
          then np_pad wav (max_wave_length - n)
          else retM wav) ;;
  retM (wav, wave_slices, mel_slices).

(** Lines 136-146: the partial utterances, their embeddings, and the
    normalized mean. *)
Definition embed_partials (wav : loc) (wave_slices mel_slices : list slice)
    (return_partials : bool) : M utterance_result :=
  frames <~ call_wav_to_mel_filterbank wav ;;
  frames_batch <~ liftM (np_array (map (getslice frames) mel_slices)) ;;
  partial_embeds <~ embed_frames_batch frames_batch ;;
  raw_embed <~ np_mean_axis0 partial_embeds ;;
  norm <~ np_linalg_norm raw_embed ;;
  let embed := array_div raw_embed norm in
  if return_partials
  then retM (EmbedPartials embed (Some partial_embeds) (Some wave_slices))
  else retM (Embed embed).

Definition embed_utterance (wav : loc) (using_partials return_partials : bool)
    (kw : kwargs) : M utterance_result :=
  if negb using_partials then embed_whole wav return_partials
  else
    '(wav, wave_slices, mel_slices) <~ split_and_pad wav kw ;;
    embed_partials wav wave_slices mel_slices return_partials.
End Encoder.

(** ** [load_model] and [is_loaded] *)

(** A [torch.device], by its name. *)
Inductive device : Type := Device (name : String.string).

(** The [device] argument of [load_model]: [None], a [str], or a device. *)
Inductive device_arg : Type :=
| DeviceNone
| DeviceStr (name : String.string)
| DeviceObj (d : device).

(** What [load_model] raises: an exception of torch or of the encoder, or
    the [KeyError] of [checkpoint["model_state"]]. *)
Inductive load_exn (E : Type) : Type :=
| Raised (e : E)
| KeyError (key : String.string).
Arguments Raised {E} e.
Arguments KeyError {E} key.

(** [d[key]] on a dict given by its items, [None] for a missing key. *)
Fixpoint dict_get {V : Type} (key : String.string)
    (d : list (String.string * V)) : option V :=
  match d with
  | [] => None
  | (k, v) :: rest => if String.eqb k key then Some v else dict_get key rest
  end.

Section Loading.
(** The exceptions of torch, a state dict, and a [SpeakerEncoder] object:
    [torch] and [encoder/model.py] are not among the sources. *)
Variables (E StateDict Encoder : Type).
(** [torch.cuda.is_available()] *)
Variable torch_cuda_is_available : bool.
(** [torch.device(name)] *)
Variable torch_device : String.string -> E + device.
(** [SpeakerEncoder(device, loss_device)] *)
Variable SpeakerEncoder : device -> device -> E + Encoder.
(** [torch.load(fpath)]: the checkpoint, a dict. *)
Variable torch_load : String.string -> E + list (String.string * StateDict).
(** [model.load_state_dict(state)]: changes the object, and may raise. *)
Variable load_state_dict : Encoder -> StateDict -> option E * Encoder.
(** [model.eval()] *)
Variable eval : Encoder -> Encoder.

(** The module's globals [_model] and [_device], both [None] at import. *)
Record globals : Type := mkglobals {
  g_model : option Encoder;
  g_device : option device
}.
Definition initial_globals : globals := mkglobals None None.

Definition load_model (weights_fpath : String.string) (device : device_arg)
    (g : globals) : (load_exn E + unit) * globals :=
  match (match device with
         | DeviceNone =>
             torch_device (if torch_cuda_is_available
                           then "cuda"%string else "cpu"%string)
         | DeviceStr name => torch_device name
         | DeviceObj d => inr d
         end) with
  | inl e => (inl (Raised e), g)
  | inr device =>
      (* _device = device *)
      let g := mkglobals (g_model g) (Some device) in
      match torch_device "cpu"%string with
      | inl e => (inl (Raised e), g)
      | inr cpu =>
          match SpeakerEncoder device cpu with
          | inl e => (inl (Raised e), g)
          | inr m =>
              (* _model = SpeakerEncoder(_device, torch.device("cpu")) *)
              let g := mkglobals (Some m) (Some device) in
              match torch_load weights_fpath with
              | inl e => (inl (Raised e), g)
              | inr checkpoint =>
                  match dict_get "model_state"%string checkpoint with
                  | None => (inl (KeyError "model_state"%string), g)
                  | Some model_state =>
                      match load_state_dict m model_state with
                      | (Some e, m) =>
                          (inl (Raised e), mkglobals (Some m) (Some device))
                      | (None, m) =>
                          (inr tt, mkglobals (Some (eval m)) (Some device))
                      end
                  end
              end
          end
      end
  end.

(** [is_loaded()]: [_model is not None]. *)
Definition is_loaded (g : globals) : bool :=
  match g_model g with
  | Some _ => true
  | None => false
  end.
End Loading.

(** * Properties *)

(** ** Worked examples *)

Example samples_per_frame_160 : samples_per_frame = 160.
Proof. reflexivity. Qed.

Example slices_32000 :
  compute_partial_slices 32000 160 (3 # 4) (1 # 2)
  = inr ([mkslice 0 25600; mkslice 12800 38400], [mkslice 0 160; mkslice 80 240]).
Proof. vm_compute. reflexivity. Qed.

Example slices_8000 :
  compute_partial_slices 8000 160 (3 # 4) (1 # 2)
  = inr ([mkslice 0 25600], [mkslice 0 160]).
Proof. vm_compute. reflexivity. Qed.

Example slices_40000 :
  compute_partial_slices 40000 160 (3 # 4) (1 # 2)
  = inr ([mkslice 0 25600; mkslice 12800 38400], [mkslice 0 160; mkslice 80 240]).
Proof. vm_compute. reflexivity. Qed.

(** ** Facts about the primitives *)

Lemma Qltb_lt (x y : Q) : Qltb x y = true <-> (x < y)%Q.
Proof.
  unfold Qltb. rewrite Qlt_alt.
  destruct (x ?= y)%Q; split; intro H; try reflexivity; discriminate.
Qed.

Lemma Qleb_le (x y : Q) : Qleb x y = true <-> (x <= y)%Q.
Proof.
  unfold Qleb. rewrite Qle_alt.
  destruct (x ?= y)%Q; split; intro H; try reflexivity; try discriminate.
  exfalso. apply H. reflexivity.
Qed.

Lemma py_int_inject_Z (z : Z) : py_int (inject_Z z) = z.
Proof. unfold py_int. simpl. apply Z.quot_1_r. Qed.

Lemma Qdiv_inject_pos (a : Z) (p : positive) :
  (inject_Z a / inject_Z (Zpos p))%Q = (a * 1 # 1 * p)%Q.
Proof. reflexivity. Qed.

Lemma Qceiling_div_pos (a b : Z) :
  0 < b -> Qceiling (inject_Z a / inject_Z b) = - ((- a) / b).
Proof.
  intros Hb. destruct b as [|p|p]; try lia.
  rewrite Qdiv_inject_pos. unfold Qceiling, Qfloor, Qopp. simpl Qnum. simpl Qden.
  rewrite Z.mul_1_r. reflexivity.
Qed.



Lemma bind_ret {A B : Type} (a : A) (k : A -> result B) : bind (ret a) k = k a.
Proof. reflexivity. Qed.

Lemma getitem_last_snoc {A : Type} (xs : list A) (x : A) :
  getitem_last (xs ++ [x]) = ret x.
Proof. unfold getitem_last. rewrite rev_unit. reflexivity. Qed.

Lemma getitem_last_snoc_map {A : Type} (f : nat -> A) (m : nat) :
  getitem_last (map f (seq 0 (S m))) = ret (f m).
Proof. rewrite seq_S, map_app. apply getitem_last_snoc. Qed.

Lemma map_seq_snoc {A : Type} (f : nat -> A) (m : nat) :
  map f (seq 0 (S m)) = map f (seq 0 m) ++ [f m].
Proof. rewrite seq_S, map_app. reflexivity. Qed.

Lemma drop_last_map_seq {A : Type} (f : nat -> A) (m : nat) :
  drop_last (map f (seq 0 (S m))) = map f (seq 0 m).
Proof. unfold drop_last. rewrite map_seq_snoc. apply removelast_last. Qed.

Lemma range_len_pos (steps frame_step : Z) :
  1 <= steps -> 1 <= frame_step -> 1 <= range_len 0 steps frame_step.
Proof.
  intros Hs Hf. unfold range_len.
  destruct (0 <? frame_step) eqn:E1; [|apply Z.ltb_ge in E1; lia].
  destruct (0 <? steps) eqn:E2; [|apply Z.ltb_ge in E2; lia].
  pose proof (Z.div_pos (steps - 0 - 1) frame_step ltac:(lia) ltac:(lia)). lia.
Qed.


Lemma py_range_from_0 (steps frame_step : Z) :
  1 <= frame_step ->
  py_range 0 steps frame_step
  = ret (map (fun k => Z.of_nat k * frame_step)
             (seq 0 (Z.to_nat (range_len 0 steps frame_step)))).
Proof.
  intros Hf. unfold py_range.
  destruct (frame_step =? 0) eqn:E; [apply Z.eqb_eq in E; lia|].
  reflexivity.
Qed.

Lemma frame_step_of_pos (p : Z) (overlap : Q) : 1 <= frame_step_of p overlap.
Proof. unfold frame_step_of. lia. Qed.

Lemma steps_of_pos (nf p fs : Z) : 1 <= steps_of nf p fs.
Proof. unfold steps_of. lia. Qed.

Section GeometryFacts.
Variables sampling_rate mel_window_step : Z.
Let spf := samples_per_frame_cfg sampling_rate mel_window_step.

Lemma samples_per_frame_cfg_quot :
  samples_per_frame_cfg sampling_rate mel_window_step
  = Z.quot (sampling_rate * mel_window_step) 1000.
Proof.
  unfold samples_per_frame_cfg, py_int.
  change (inject_Z 1000) with (inject_Z (Zpos 1000)).
  rewrite Qdiv_inject_pos. simpl Qnum. simpl Qden.
  rewrite Z.mul_1_r. reflexivity.
Qed.

Lemma n_frames_cfg_ok (n_samples : Z) :
  0 < spf ->
  n_frames_cfg sampling_rate mel_window_step n_samples
  = ret (- ((- (n_samples + 1)) / spf)).
Proof.
  intros Hs. unfold n_frames_cfg, py_truediv. fold spf.
  destruct (spf =? 0) eqn:E; [apply Z.eqb_eq in E; lia|].
  simpl. unfold np_ceil. rewrite py_int_inject_Z, Qceiling_div_pos by exact Hs.
  reflexivity.
Qed.

Lemma fold_loop_body (p : Z) (r : list Z) (ws ms : list slice) :
  fold_left (loop_body sampling_rate mel_window_step p) r (ws, ms)
  = (ws ++ map (fun i => mkslice (i * spf) ((i + p) * spf)) r,
     ms ++ map (fun i => mkslice i (i + p)) r).
Proof.
  revert ws ms. induction r as [|i r IH]; intros ws ms; simpl.
  - rewrite !app_nil_r. reflexivity.
  - rewrite IH, <- !app_assoc. reflexivity.
Qed.

Lemma n_enumerated_pos (n_samples p : Z) (overlap : Q) :
  (1 <= n_enumerated sampling_rate mel_window_step n_samples p overlap)%nat.
Proof.
  unfold n_enumerated.
  pose proof (range_len_pos _ _ (steps_of_pos (- ((- (n_samples + 1)) / spf)) p
                (frame_step_of p overlap)) (frame_step_of_pos p overlap)) as H.
  unfold spf in H. lia.
Qed.

Lemma enumerate_slices_cfg_ok (n_samples p : Z) (overlap : Q) :
  0 < spf ->
  enumerate_slices_cfg sampling_rate mel_window_step n_samples p overlap
  = ret (plan_of spf p (frame_step_of p overlap)
           (n_enumerated sampling_rate mel_window_step n_samples p overlap)).
Proof.
  intros Hs. unfold enumerate_slices_cfg.
  rewrite n_frames_cfg_ok by exact Hs. rewrite bind_ret.
  rewrite py_range_from_0 by apply frame_step_of_pos. rewrite bind_ret.
  rewrite fold_loop_body. simpl app. unfold plan_of, n_enumerated.
  rewrite !map_map. reflexivity.
Qed.
End GeometryFacts.

Section TailFacts.
Variables sampling_rate mel_window_step : Z.
Let spf := samples_per_frame_cfg sampling_rate mel_window_step.

(** What the tail check does to a plan of [m + 1] partial utterances. *)
Lemma tail_check_plan (n_samples p fs : Z) (c : Q) (m : nat) :
  tail_check n_samples c (plan_of spf p fs (S m))
  = ret (if np_lt (coverage n_samples (wav_at spf p fs m)) c
            && (1 <? Z.of_nat (S m))
         then plan_of spf p fs m
         else plan_of spf p fs (S m)).
Proof.
  unfold tail_check, plan_of.
  rewrite (map_seq_snoc (wav_at spf p fs)), getitem_last_snoc, bind_ret.
  rewrite <- (map_seq_snoc (wav_at spf p fs)).
  rewrite length_map, length_seq, !drop_last_map_seq.
  destruct (np_lt _ c && _); reflexivity.
Qed.

Lemma asserts_pass (c o : Q) :
  (0 <= o < 1)%Q -> (0 < c <= 1)%Q ->
  Qleb 0 o && Qltb o 1 = true /\ Qltb 0 c && Qleb c 1 = true.
Proof.
  intros [H1 H2] [H3 H4].
  apply Qleb_le in H1, H4. apply Qltb_lt in H2, H3.
  rewrite H1, H2, H3, H4. split; reflexivity.
Qed.

Lemma asserts_passed (c o : Q) :
  Qleb 0 o && Qltb o 1 = true -> Qltb 0 c && Qleb c 1 = true ->
  (0 <= o < 1)%Q /\ (0 < c <= 1)%Q.
Proof.
  intros H1 H2.
  apply andb_prop in H1 as [H1 H1']. apply andb_prop in H2 as [H2 H2'].
  apply Qleb_le in H1, H2'. apply Qltb_lt in H1', H2. tauto.
Qed.

(** With passing assertions the function is the tail check of the
    enumerated plan. *)
Lemma compute_partial_slices_cfg_valid (n_samples p : Z) (c o : Q) :
  (0 <= o < 1)%Q -> (0 < c <= 1)%Q ->
  compute_partial_slices_cfg sampling_rate mel_window_step n_samples p c o
  = (plan <- enumerate_slices_cfg sampling_rate mel_window_step n_samples p o ;;
     tail_check n_samples c plan).
Proof.
  intros Ho Hc. destruct (asserts_pass c o Ho Hc) as [A1 A2].
  unfold compute_partial_slices_cfg. rewrite A1, A2. reflexivity.
Qed.

(** A returned plan passed both assertions. *)
Lemma compute_partial_slices_cfg_returned (n_samples p : Z) (c o : Q)
    (r : list slice * list slice) :
  compute_partial_slices_cfg sampling_rate mel_window_step n_samples p c o = ret r ->
  (0 <= o < 1)%Q /\ (0 < c <= 1)%Q.
Proof.
  unfold compute_partial_slices_cfg. intros H.
  destruct (Qleb 0 o && Qltb o 1) eqn:A1; [|discriminate H].
  destruct (Qltb 0 c && Qleb c 1) eqn:A2; [|discriminate H].
  apply asserts_passed; assumption.
Qed.

(** An invalid [overlap] or [min_pad_coverage] stops the function at its
    assertions, whatever the rest would have done. *)
Lemma compute_partial_slices_cfg_invalid (n_samples p : Z) (c o : Q) :
  ~ (0 <= o < 1)%Q \/ ~ (0 < c <= 1)%Q ->
  compute_partial_slices_cfg sampling_rate mel_window_step n_samples p c o
  = raise AssertionError.
Proof.
  intros H. unfold compute_partial_slices_cfg.
  destruct (Qleb 0 o && Qltb o 1) eqn:A1; [|reflexivity].
  destruct (Qltb 0 c && Qleb c 1) eqn:A2; [|reflexivity].
  destruct (asserts_passed c o A1 A2) as [Ho Hc]. tauto.
Qed.

(** Every returned plan is [plan_of] some positive number of partial
    utterances. *)
Lemma returned_plan_shape (n_samples p : Z) (c o : Q) (ws ms : list slice) :
  0 < spf ->
  compute_partial_slices_cfg sampling_rate mel_window_step n_samples p c o
  = ret (ws, ms) ->
  exists m : nat,
    (1 <= m)%nat /\ (ws, ms) = plan_of spf p (frame_step_of p o) m.
Proof.
  intros Hs H.
  destruct (compute_partial_slices_cfg_returned _ _ _ _ _ H) as [Ho Hc].
  rewrite (compute_partial_slices_cfg_valid _ _ _ _ Ho Hc) in H.
  rewrite (enumerate_slices_cfg_ok _ _ _ _ _ Hs), bind_ret in H.
  pose proof (n_enumerated_pos sampling_rate mel_window_step n_samples p o) as Hm.
  fold spf in H.
  destruct (n_enumerated sampling_rate mel_window_step n_samples p o) as [|m];
    [lia|].
  rewrite tail_check_plan in H.
  destruct (np_lt _ c && (1 <? Z.of_nat (S m))) eqn:E;
    apply (f_equal (fun r => match r with inr x => x | inl _ => (ws, ms) end)) in H;
    symmetry in H.
  - apply andb_prop in E as [_ E]. apply Z.ltb_lt in E.
    exists m. split; [lia|exact H].
  - exists (S m). split; [lia|exact H].
Qed.
End TailFacts.

Lemma samples_per_frame_pos : 0 < samples_per_frame.
Proof. reflexivity. Qed.






(** ** The tail-coverage policy *)



(** ** The enumeration *)





(** ** Invariants of a returned plan *)


Lemma returned_plan (n_samples p : Z) (c o : Q) (ws ms : list slice) :
  compute_partial_slices n_samples p c o = ret (ws, ms) ->
  exists m : nat,
    (1 <= m)%nat /\
    ws = map (wav_at samples_per_frame p (frame_step_of p o)) (seq 0 m) /\
    ms = map (mel_at p (frame_step_of p o)) (seq 0 m).
Proof.
  intros H.
  destruct (returned_plan_shape Params.sampling_rate Params.mel_window_step
              n_samples p c o ws ms samples_per_frame_pos H) as (m & Hm & E).
  exists m. split; [exact Hm|].
  unfold plan_of in E. fold samples_per_frame in E.
  split; congruence.
Qed.





(** ** Defaults, any [n_samples] *)


(** ** Assertions *)

(** C8. A call whose [overlap] is outside [[0,1)] or whose
    [min_pad_coverage] is outside [(0,1]] fails at the assertions with
    [AssertionError], before anything is computed (so also for constants
    that would make the later division raise), and returns no slice list. *)
Theorem invalid_parameters_fail_fast (n_samples p : Z) (c o : Q) :
  ~ (0 <= o < 1)%Q \/ ~ (0 < c <= 1)%Q ->
  compute_partial_slices n_samples p c o = raise AssertionError /\
  (forall sampling_rate mel_window_step,
     compute_partial_slices_cfg sampling_rate mel_window_step n_samples p c o
     = raise AssertionError) /\
  (forall r, compute_partial_slices n_samples p c o <> ret r).
Proof.
  intros H.
  assert (G : forall sr st, compute_partial_slices_cfg sr st n_samples p c o
                            = raise AssertionError)
    by (intros; apply compute_partial_slices_cfg_invalid; exact H).
  split; [apply G|]. split; [exact G|].
  intros r E. unfold compute_partial_slices in E. rewrite G in E. discriminate E.
Qed.

Lemma invalid_parameters_fail_fast_witness :
  (~ (0 <= 1 < 1)%Q \/ ~ (0 < 3 # 4 <= 1)%Q) /\
  compute_partial_slices 32000 160 (3 # 4) 1 = raise AssertionError /\
  (forall sampling_rate mel_window_step,
     compute_partial_slices_cfg sampling_rate mel_window_step 32000 160 (3 # 4) 1
     = raise AssertionError) /\
  (forall r, compute_partial_slices 32000 160 (3 # 4) 1 <> ret r).
Proof.
  assert (H : ~ (0 <= 1 < 1)%Q \/ ~ (0 < 3 # 4 <= 1)%Q)
    by (left; intros [_ H]; lra).
  split; [exact H|].
  exact (invalid_parameters_fail_fast 32000 160 (3 # 4) 1 H).
Defined.

(** With valid parameters but constants that give [samples_per_frame = 0]
    the function fails later, at the division. *)
Example zero_samples_per_frame_raises :
  compute_partial_slices_cfg 90 10 32000 160 (3 # 4) (1 # 2)
  = raise ZeroDivisionError.
Proof. vm_compute. reflexivity. Qed.

(** ** [samples_per_frame] *)

(** C4, as the spec states it, fails: at 22050 Hz and a 12 ms step the
    product is 264.6 samples, which the code truncates to 264 while
    rounding gives 265. *)
Lemma samples_per_frame_not_rounded :
  samples_per_frame_cfg 22050 12 = 264 /\
  np_rint (inject_Z (22050 * 12) / inject_Z 1000) = 265 /\
  samples_per_frame_cfg 22050 12
  <> np_rint (inject_Z (22050 * 12) / inject_Z 1000).
Proof. repeat split; vm_compute; congruence. Qed.

(** C4 (amended). [samples_per_frame] is
    [int(sampling_rate * mel_window_step / 1000)]: the product divided by
    1000 and truncated toward zero, not rounded.  It is positive exactly
    when the product is at least 1000, it equals the rounded quotient
    whenever 1000 divides the product, and for the constants of
    [params.py] (16000 Hz, 10 ms) it is 160, which is also the rounded
    value. *)
Theorem samples_per_frame_truncates (sampling_rate mel_window_step : Z) :
  samples_per_frame_cfg sampling_rate mel_window_step
  = Z.quot (sampling_rate * mel_window_step) 1000 /\
  (0 < samples_per_frame_cfg sampling_rate mel_window_step
   <-> 1000 <= sampling_rate * mel_window_step) /\
  ((1000 | sampling_rate * mel_window_step) ->
   samples_per_frame_cfg sampling_rate mel_window_step
   = np_rint (inject_Z (sampling_rate * mel_window_step) / inject_Z 1000)) /\
  samples_per_frame = 160 /\
  samples_per_frame
  = np_rint (inject_Z (Params.sampling_rate * Params.mel_window_step)
             / inject_Z 1000).
Proof.
  rewrite samples_per_frame_cfg_quot.
  set (a := sampling_rate * mel_window_step).
  split; [reflexivity|]. split; [|split; [|split; reflexivity]].
  - split; intros H.
    + destruct (Z_lt_le_dec a 1000) as [L|L]; [|exact L]. exfalso.
      destruct (Z_lt_le_dec a 0) as [N|N].
      * pose proof (Z.quot_opp_l a 1000 ltac:(lia)) as Q1.
        pose proof (Z.quot_pos (- a) 1000 ltac:(lia) ltac:(lia)). lia.
      * rewrite Z.quot_small in H by lia. lia.
    + pose proof (Z.quot_le_mono 1000 a 1000 ltac:(lia) H) as M.
      rewrite Z.quot_same in M by lia. lia.
  - intros [q Hq]. rewrite Hq, Z.quot_mul by lia.
    unfold np_rint.
    change (inject_Z 1000) with (inject_Z (Zpos 1000)).
    rewrite Qdiv_inject_pos.
    assert (E : (q * 1000 * 1 # 1 * 1000)%Q == inject_Z q).
    { unfold Qeq, inject_Z. simpl. lia. }
    assert (F : Qfloor (q * 1000 * 1 # 1 * 1000) = q).
    { rewrite (Qfloor_comp _ _ E). apply Qfloor_Z. }
    rewrite F.
    assert (C : ((q * 1000 * 1 # 1 * 1000) - inject_Z q ?= 1 # 2)%Q = Lt).
    { apply Qlt_alt.
      assert (Z0 : ((q * 1000 * 1 # 1 * 1000) - inject_Z q == 0)%Q)
        by (rewrite E; ring).
      rewrite Z0. reflexivity. }
    rewrite C. reflexivity.
Qed.

(** ** Aggregation: the normalized mean *)





(** ** Runs of [embed_utterance] *)

(** Unfolds the operations of the run monad down to functions on states. *)
Ltac unfold_ops :=
  unfold bindM, liftM, embed_frames_batch, np_mean_axis0, np_linalg_norm,
    emit, retM, raiseM.

Lemma bindM_ret_inv {A B : Type} (m : M A) (k : A -> M B) (st st' : state) (b : B) :
  bindM m k st = (ret b, st') ->
  exists a st1, m st = (ret a, st1) /\ k a st1 = (ret b, st').
Proof.
  unfold bindM. destruct (m st) as [[e|a] st1]; intros H.
  - discriminate H.
  - exists a, st1. split; [reflexivity|exact H].
Qed.

Lemma bindM_run {A B : Type} (m : M A) (k : A -> M B) (st st1 : state) (a : A) :
  m st = (ret a, st1) -> bindM m k st = k a st1.
Proof. unfold bindM. intros ->. reflexivity. Qed.

Section EncoderFacts.
Variable wav_to_mel_filterbank : waveform -> spectrogram.
Variable _model : option (list spectrogram -> list embedding).

Lemma call_wav_to_mel_filterbank_run (wav : loc) (st : state) :
  call_wav_to_mel_filterbank wav_to_mel_filterbank wav st
  = (ret (wav_to_mel_filterbank (nth wav (heap st) [])),
     mkstate (heap st) (trace st ++ [CallWavToMel (nth wav (heap st) [])])).
Proof. reflexivity. Qed.

(** Whatever [embed_partials] does after it called the feature extractor,
    it leaves the store alone and calls the extractor once. *)
Lemma embed_partials_run (wav : loc) (ws ms : list slice) (rp : bool)
    (st : state) :
  exists out post,
    embed_partials wav_to_mel_filterbank _model wav ws ms rp st
    = (out, mkstate (heap st)
              (trace st ++ CallWavToMel (nth wav (heap st) []) :: post)) /\
    (forall x, ~ In (CallWavToMel x) post).
Proof.
  unfold embed_partials.
  rewrite (bindM_run _ _ _ _ _ (call_wav_to_mel_filterbank_run wav st)).
  set (frames := wav_to_mel_filterbank (nth wav (heap st) [])).
  unfold_ops. simpl.
  destruct (np_array (map (getslice frames) ms)) as [e|batch].
  - exists (inl e), []. split; [reflexivity|]. intros x [].
  - destruct _model as [forward|].
    + simpl. rewrite <- !app_assoc. simpl.
      destruct rp; eexists; eexists; (split; [reflexivity|]);
        intros x [H|[H|[H|[]]]]; discriminate H.
    + exists (inl ModelNotLoaded), []. split; [reflexivity|]. intros x [].
Qed.
End EncoderFacts.

Lemma np_array_ret (xs b : list spectrogram) : np_array xs = ret b -> b = xs.
Proof.
  unfold np_array. destruct xs as [|x rest]; intros H.
  - injection H as <-. reflexivity.
  - destruct (forallb (fun y => Nat.eqb (length y) (length x)) rest);
      [injection H as <-; reflexivity|discriminate H].
Qed.

Section EncoderRuns.
Variable wav_to_mel_filterbank : waveform -> spectrogram.
Variable _model : option (list spectrogram -> list embedding).

(** A returning run of [embed_partials]: the model was loaded, the batch
    was stacked and embedded, and the result is the mean of the partial
    embeddings divided by its norm. *)
Lemma embed_partials_ret_inv (wav : loc) (ws ms : list slice) (rp : bool)
    (st st' : state) (res : utterance_result) :
  embed_partials wav_to_mel_filterbank _model wav ws ms rp st = (ret res, st') ->
  exists forward batch,
    _model = Some forward /\
    batch = map (getslice (wav_to_mel_filterbank (nth wav (heap st) []))) ms /\
    In (CallWavToMel (nth wav (heap st) [])) (trace st') /\
    In (CallForward batch) (trace st') /\
    res = (let embed := array_div (mean_axis0 (forward batch))
                          (linalg_norm (mean_axis0 (forward batch))) in
           if rp then EmbedPartials embed (Some (forward batch)) (Some ws)
           else Embed embed).
Proof.
  unfold embed_partials.
  rewrite (bindM_run _ _ _ _ _ (call_wav_to_mel_filterbank_run _ wav st)).
  set (frames := wav_to_mel_filterbank (nth wav (heap st) [])).
  unfold_ops. simpl.
  destruct (np_array (map (getslice frames) ms)) as [e|batch] eqn:Hb;
    [intros H; discriminate H|].
  apply np_array_ret in Hb.
  destruct _model as [forward|]; [|intros H; discriminate H].
  simpl. intros H. exists forward, batch.
  split; [reflexivity|]. split; [exact Hb|].
  assert (Ht : trace st'
               = ((trace st ++ [CallWavToMel (nth wav (heap st) [])])
                  ++ [CallForward batch]) ++ [CallMean (forward batch)]
                 ++ [CallNorm (mean_axis0 (forward batch))]).
  { destruct rp; injection H as _ H; rewrite <- H; simpl;
      rewrite <- !app_assoc; reflexivity. }
  split; [|split].
  - rewrite Ht. apply in_or_app. left. apply in_or_app. left.
    apply in_or_app. right. left. reflexivity.
  - rewrite Ht. apply in_or_app. left. apply in_or_app. right. left. reflexivity.
  - destruct rp; injection H as H _; symmetry; exact H.
Qed.

(** A returning run of [split_and_pad] went through a returning
    [compute_partial_slices]. *)
Lemma split_and_pad_ret_inv (wav wav' : loc) (kw : kwargs) (st st1 : state)
    (ws ms : list slice) :
  split_and_pad wav kw st = (ret (wav', ws, ms), st1) ->
  compute_partial_slices_kw (Z.of_nat (length (nth wav (heap st) []))) kw
  = ret (ws, ms).
Proof.
  unfold split_and_pad, py_len, bindM, liftM, deref, emit, retM. simpl.
  destruct (compute_partial_slices_kw _ kw) as [e|[ws0 ms0]];
    [intros H; discriminate H|].
  simpl. destruct (getitem_last ws0) as [e|last]; [intros H; discriminate H|].
  destruct (_ <=? stop last).
  - unfold np_pad, bindM, deref, emit, alloc, raiseM. simpl.
    destruct (_ <? 0); simpl; intros H; [discriminate H|].
    injection H as _ H1 H2 _. subst. reflexivity.
  - intros H. injection H as _ H1 H2 _. subst. reflexivity.
Qed.

(** The run of [split_and_pad] when [compute_partial_slices] returns. *)
Lemma split_and_pad_run (wav : loc) (kw : kwargs) (st : state)
    (ws ms : list slice) (last : slice) :
  let w := nth wav (heap st) [] in
  let n := Z.of_nat (length w) in
  compute_partial_slices_kw n kw = ret (ws, ms) ->
  getitem_last ws = ret last ->
  split_and_pad wav kw st
  = if n <=? stop last
    then (ret (length (heap st), ws, ms),
          mkstate (heap st ++ [w ++ repeat 0%R (Z.to_nat (stop last - n))])
                  (trace st ++ [CallComputePartialSlices n kw;
                                CallPad w (stop last - n)]))
    else (ret (wav, ws, ms),
          mkstate (heap st) (trace st ++ [CallComputePartialSlices n kw])).
Proof.
  intros w n Hc Hl. subst w n.
  unfold split_and_pad, py_len, bindM, liftM, deref, emit, retM. simpl.
  rewrite Hc. simpl. rewrite Hl. unfold ret. cbv beta iota.
  destruct (_ <=? stop last) eqn:E; [|reflexivity].
  apply Z.leb_le in E.
  unfold np_pad, bindM, deref, emit, alloc, raiseM. simpl.
  destruct (_ <? 0) eqn:E2; [apply Z.ltb_lt in E2; lia|].
  simpl. rewrite <- app_assoc. reflexivity.
Qed.
End EncoderRuns.

Section EncoderPaths.
Variable wav_to_mel_filterbank : waveform -> spectrogram.

(** The partial-utterance path returns once the plan is computed, the
    slices of the spectrogram stack into a batch and the model is
    loaded. *)
Lemma embed_utterance_partials_returns
    (forward : list spectrogram -> list embedding)
    (wav : loc) (rp : bool) (kw : kwargs) (st : state)
    (ws ms : list slice) (last : slice) (batch : list spectrogram) :
  let w := nth wav (heap st) [] in
  let n := Z.of_nat (length w) in
  let handed := if n <=? stop last
                then w ++ repeat 0%R (Z.to_nat (stop last - n)) else w in
  compute_partial_slices_kw n kw = ret (ws, ms) ->
  getitem_last ws = ret last ->
  np_array (map (getslice (wav_to_mel_filterbank handed)) ms) = ret batch ->
  exists st',
    embed_utterance wav_to_mel_filterbank (Some forward) wav true rp kw st
    = (ret (let embed := array_div (mean_axis0 (forward batch))
                           (linalg_norm (mean_axis0 (forward batch))) in
            if rp then EmbedPartials embed (Some (forward batch)) (Some ws)
            else Embed embed), st').
Proof.
  intros w n handed Hc Hl Hb.
  unfold embed_utterance. change (negb true) with false. cbv iota.
  pose proof (split_and_pad_run wav kw st ws ms last Hc Hl) as Hs.
  fold w in Hs. fold n in Hs.
  unfold handed in Hb. clear handed.
  destruct (n <=? stop last) eqn:E;
    rewrite (bindM_run _ _ _ _ _ Hs); cbv beta iota;
    unfold embed_partials;
    rewrite (bindM_run _ _ _ _ _ (call_wav_to_mel_filterbank_run _ _ _));
    cbn [heap trace].
  - rewrite nth_middle.
    unfold_ops. rewrite Hb. cbn [heap trace].
    destruct rp; eexists; reflexivity.
  - fold w.
    unfold_ops. rewrite Hb. cbn [heap trace].
    destruct rp; eexists; reflexivity.
Qed.
End EncoderPaths.

(** ** The utterance pipeline *)

(** C6. With [using_partials] false, [embed_utterance] calls the feature
    extractor on the whole waveform and the model on the one-element batch
    of its spectrogram, and nothing else: neither [compute_partial_slices]
    (whatever the keyword arguments) nor [np.mean] or [np.linalg.norm].  It
    returns the model's single output as it is; with [return_partials] the
    two further values are [None], without it they are not returned. *)
Theorem whole_utterance_path
    (wav_to_mel_filterbank : waveform -> spectrogram)
    (_model : option (list spectrogram -> list embedding))
    (wav : loc) (return_partials : bool) (kw : kwargs) (st : state) :
  (forall forward b, _model = Some forward -> length (forward b) = length b) ->
  let w := nth wav (heap st) [] in
  let frames := wav_to_mel_filterbank w in
  exists out evs,
    embed_utterance wav_to_mel_filterbank _model wav false return_partials kw st
    = (out, mkstate (heap st) (trace st ++ evs)) /\
    (forall ev, In ev evs -> ev = CallWavToMel w \/ ev = CallForward [frames]) /\
    (_model = None -> out = raise ModelNotLoaded) /\
    (forall forward, _model = Some forward ->
       exists e,
         forward [frames] = [e] /\
         evs = [CallWavToMel w; CallForward [frames]] /\
         out = ret (if return_partials then EmbedPartials e None None
                    else Embed e)).
Proof.
  intros Hshape w frames.
  unfold embed_utterance. change (negb false) with true. cbv iota.
  unfold embed_whole.
  rewrite (bindM_run _ _ _ _ _ (call_wav_to_mel_filterbank_run _ _ _)).
  fold w. fold frames.
  unfold embed_frames_batch.
  destruct _model as [forward|].
  - pose proof (Hshape forward [frames] eq_refl) as Hl.
    destruct (forward [frames]) as [|e [|e' rest]] eqn:F; try discriminate Hl.
    cbv [bindM liftM emit retM raiseM heap trace getitem0 ret].
    exists (ret (if return_partials then EmbedPartials e None None else Embed e)),
           [CallWavToMel w; CallForward [frames]].
    split; [|split; [|split]].
    + rewrite <- app_assoc. destruct return_partials; reflexivity.
    + intros ev [H|[H|[]]]; [left|right]; symmetry; exact H.
    + intros H. discriminate H.
    + intros forward' H. injection H as <-. exists e.
      rewrite F. repeat split; reflexivity.
  - cbv [bindM liftM emit retM raiseM heap trace].
    exists (raise ModelNotLoaded), [CallWavToMel w].
    split; [reflexivity|]. split; [|split].
    + intros ev [H|[]]. left. symmetry. exact H.
    + reflexivity.
    + intros forward H. discriminate H.
Qed.

Lemma whole_utterance_path_witness :
  let mel : waveform -> spectrogram := fun w => [w] in
  let fwd : list spectrogram -> list embedding := map (fun s => hd [] s) in
  let kw := mkkwargs None None (Some (2 # 1)) in
  let st := mkstate [[1%R; 2%R; 3%R]] [] in
  (forall forward b, Some fwd = Some forward -> length (forward b) = length b) /\
  exists out evs,
    embed_utterance mel (Some fwd) 0%nat false true kw st
    = (out, mkstate (heap st) (trace st ++ evs)) /\
    (forall ev, In ev evs ->
       ev = CallWavToMel [1%R; 2%R; 3%R]
       \/ ev = CallForward [mel [1%R; 2%R; 3%R]]) /\
    (Some fwd = None -> out = raise ModelNotLoaded) /\
    (forall forward, Some fwd = Some forward ->
       exists e,
         forward [mel [1%R; 2%R; 3%R]] = [e] /\
         evs = [CallWavToMel [1%R; 2%R; 3%R];
                CallForward [mel [1%R; 2%R; 3%R]]] /\
         out = ret (EmbedPartials e None None)).
Proof.
  intros mel fwd kw st.
  assert (Hs : forall forward b,
             Some fwd = Some forward -> length (forward b) = length b).
  { intros forward b H. injection H as <-. apply length_map. }
  split; [exact Hs|].
  exact (whole_utterance_path mel (Some fwd) 0%nat true kw st Hs).
Defined.

(** C7. On the partial-utterance path, once [compute_partial_slices]
    returned, the waveform handed to the feature extractor is the caller's
    waveform followed by zeros up to the stop offset of the last waveform
    slice when that offset exceeds its length, and the waveform at its own
    length otherwise.  The extractor is called once.  No array of the store
    is modified, the caller's least of all: padding allocates a new
    array. *)
Theorem padded_waveform
    (wav_to_mel_filterbank : waveform -> spectrogram)
    (_model : option (list spectrogram -> list embedding))
    (wav : loc) (return_partials : bool) (kw : kwargs) (st : state)
    (ws ms : list slice) :
  let w := nth wav (heap st) [] in
  let n := Z.of_nat (length w) in
  (wav < length (heap st))%nat ->
  compute_partial_slices_kw n kw = ret (ws, ms) ->
  exists last out st' pre post,
    getitem_last ws = ret last /\
    let handed := if n <? stop last
                  then w ++ repeat 0%R (Z.to_nat (stop last - n)) else w in
    embed_utterance wav_to_mel_filterbank _model wav true return_partials kw st
    = (out, st') /\
    trace st' = trace st ++ pre ++ CallWavToMel handed :: post /\
    (forall x, ~ In (CallWavToMel x) pre) /\
    (forall x, ~ In (CallWavToMel x) post) /\
    nth wav (heap st') [] = w /\
    (forall l, (l < length (heap st))%nat ->
               nth l (heap st') [] = nth l (heap st) []) /\
    (n < stop last -> heap st' = heap st ++ [handed]) /\
    (n = stop last -> handed = w /\ heap st' = heap st ++ [w]) /\
    (stop last < n -> handed = w /\ heap st' = heap st).
Proof.
  intros w n Hwav Hc.
  assert (Hlast : exists last, getitem_last ws = ret last).
  { unfold compute_partial_slices_kw in Hc.
    destruct (returned_plan _ _ _ _ _ _ Hc) as (m & Hm & -> & _).
    destruct m as [|m]; [lia|]. eexists. apply getitem_last_snoc_map. }
  destruct Hlast as [last Hl]. exists last.
  pose proof (split_and_pad_run wav kw st ws ms last Hc Hl) as Hs.
  fold w in Hs. fold n in Hs.
  unfold embed_utterance. change (negb true) with false. cbv iota.
  destruct (n <=? stop last) eqn:E; rewrite (bindM_run _ _ _ _ _ Hs); cbv beta iota.
  - apply Z.leb_le in E.
    set (padded := w ++ repeat 0%R (Z.to_nat (stop last - n))).
    set (st1 := mkstate _ _).
    destruct (embed_partials_run wav_to_mel_filterbank _model (length (heap st))
                ws ms return_partials st1) as (out & post & Hrun & Hpost).
    unfold st1 in Hrun. cbn [heap trace] in Hrun.
    rewrite nth_middle in Hrun. fold padded in Hrun.
    assert (Hh : (if n <? stop last then padded else w) = padded).
    { destruct (n <? stop last) eqn:E2; [reflexivity|].
      apply Z.ltb_ge in E2. unfold padded.
      replace (stop last - n) with 0 by lia. simpl. rewrite app_nil_r.
      reflexivity. }
    exists out, (mkstate (heap st ++ [padded])
                   ((trace st ++ [CallComputePartialSlices n kw;
                                  CallPad w (stop last - n)])
                    ++ CallWavToMel padded :: post)),
      [CallComputePartialSlices n kw; CallPad w (stop last - n)], post.
    cbv zeta. rewrite Hh. cbn [heap trace].
    split; [exact Hl|]. split; [exact Hrun|].
    split; [rewrite <- app_assoc; reflexivity|].
    split; [intros x [H|[H|[]]]; discriminate H|].
    split; [exact Hpost|].
    split; [rewrite app_nth1 by exact Hwav; reflexivity|].
    split; [intros l Hlt; rewrite app_nth1 by exact Hlt; reflexivity|].
    split; [reflexivity|].
    split.
    { intros Heq.
      assert (Hp : padded = w).
      { unfold padded. replace (stop last - n) with 0 by lia.
        simpl. apply app_nil_r. }
      rewrite Hp. split; reflexivity. }
    intros; lia.
  - apply Z.leb_gt in E.
    set (st1 := mkstate _ _).
    destruct (embed_partials_run wav_to_mel_filterbank _model wav
                ws ms return_partials st1) as (out & post & Hrun & Hpost).
    unfold st1 in Hrun. cbn [heap trace] in Hrun. fold w in Hrun.
    assert (Hh : (if n <? stop last
                  then w ++ repeat 0%R (Z.to_nat (stop last - n)) else w) = w).
    { destruct (n <? stop last) eqn:E2; [apply Z.ltb_lt in E2; lia|reflexivity]. }
    exists out, (mkstate (heap st)
                   ((trace st ++ [CallComputePartialSlices n kw])
                    ++ CallWavToMel w :: post)),
      [CallComputePartialSlices n kw], post.
    cbv zeta. rewrite Hh. cbn [heap trace].
    split; [exact Hl|]. split; [exact Hrun|].
    split; [rewrite <- app_assoc; reflexivity|].
    split; [intros x [H|[]]; discriminate H|].
    split; [exact Hpost|].
    split; [reflexivity|].
    split; [intros; reflexivity|].
    split; [intros; lia|].
    split; [intros; lia|].
    intros _. split; reflexivity.
Qed.

Lemma padded_waveform_witness :
  let mel : waveform -> spectrogram := fun _ => [[3%R; 4%R]] in
  let fwd : list spectrogram -> list embedding := map (fun s => hd [] s) in
  let kw := mkkwargs (Some 1) None None in
  let w := [1%R; 2%R; 3%R] in
  let st := mkstate [w] [] in
  ((0 < length (heap st))%nat /\
   compute_partial_slices_kw 3 kw = ret ([mkslice 0 160], [mkslice 0 1])) /\
  exists last out st' pre post,
    getitem_last [mkslice 0 160] = ret last /\
    let handed := if 3 <? stop last
                  then w ++ repeat 0%R (Z.to_nat (stop last - 3)) else w in
    embed_utterance mel (Some fwd) 0%nat true false kw st = (out, st') /\
    trace st' = trace st ++ pre ++ CallWavToMel handed :: post /\
    (forall x, ~ In (CallWavToMel x) pre) /\
    (forall x, ~ In (CallWavToMel x) post) /\
    nth 0%nat (heap st') [] = w /\
    (forall l, (l < length (heap st))%nat ->
               nth l (heap st') [] = nth l (heap st) []) /\
    (3 < stop last -> heap st' = heap st ++ [handed]) /\
    (3 = stop last -> handed = w /\ heap st' = heap st ++ [w]) /\
    (stop last < 3 -> handed = w /\ heap st' = heap st).
Proof.
  intros mel fwd kw w st.
  assert (H1 : (0 < length (heap st))%nat) by (simpl; lia).
  assert (H2 : compute_partial_slices_kw 3 kw
               = ret ([mkslice 0 160], [mkslice 0 1]))
    by (vm_compute; reflexivity).
  split; [split; [exact H1|exact H2]|].
  exact (padded_waveform mel (Some fwd) 0%nat false kw st
           [mkslice 0 160] [mkslice 0 1] H1 H2).
Defined.



(** ** Further properties of the aggregation and of the result *)

Lemma Rsum_repeat (x : R) (n : nat) : Rsum (repeat x n) = (INR n * x)%R.
Proof.
  induction n as [|n IH].
  - simpl. ring.
  - rewrite S_INR. simpl repeat. simpl Rsum. rewrite IH. ring.
Qed.

Lemma map_nth_seq (v : list R) (a : nat) (pre : list R) :
  length pre = a ->
  map (fun j => nth j (pre ++ v) 0%R) (seq a (length v)) = v.
Proof.
  revert a pre. induction v as [|x v IH]; intros a pre Ha; simpl.
  - reflexivity.
  - f_equal.
    + rewrite <- Ha. apply nth_middle.
    + replace (pre ++ x :: v) with ((pre ++ [x]) ++ v)
        by (rewrite <- app_assoc; reflexivity).
      apply IH. rewrite length_app. simpl. lia.
Qed.

(** The mean of a batch of [k + 1] copies of one vector is that vector, so
    the aggregate of such a batch is the vector divided by its norm. *)
Theorem aggregation_of_identical_embeddings (v : embedding) (k : nat) :
  mean_axis0 (repeat v (S k)) = v /\
  array_div (mean_axis0 (repeat v (S k)))
            (linalg_norm (mean_axis0 (repeat v (S k))))
  = array_div v (linalg_norm v).
Proof.
  assert (H : mean_axis0 (repeat v (S k)) = v).
  { unfold mean_axis0. rewrite repeat_length. simpl hd.
    etransitivity; [|exact (map_nth_seq v 0 [] eq_refl)]. simpl app.
    apply map_ext. intros j.
    rewrite map_repeat, Rsum_repeat.
    field. apply not_0_INR. discriminate. }
  split; [exact H|]. rewrite H. reflexivity.
Qed.

(** In a returned triple the partial embeddings and the waveform slices
    are both [None] or both present; when present, and when the model
    returns one embedding per batch element, they have the same length. *)
Theorem result_partials_paired
    (wav_to_mel_filterbank : waveform -> spectrogram)
    (_model : option (list spectrogram -> list embedding))
    (wav : loc) (using_partials return_partials : bool) (kw : kwargs)
    (st st' : state) (e : embedding)
    (pe : option (list embedding)) (ws : option (list slice)) :
  (forall forward b, _model = Some forward -> length (forward b) = length b) ->
  embed_utterance wav_to_mel_filterbank _model wav using_partials
    return_partials kw st = (ret (EmbedPartials e pe ws), st') ->
  (using_partials = false /\ pe = None /\ ws = None) \/
  (using_partials = true /\
   exists partial_embeds wave_slices,
     pe = Some partial_embeds /\ ws = Some wave_slices /\
     length partial_embeds = length wave_slices).
Proof.
  intros Hshape H. unfold embed_utterance in H.
  destruct using_partials; cbn [negb] in H; cbv iota in H.
  - right. split; [reflexivity|].
    apply bindM_ret_inv in H as ([[wav' slices] ms] & st1 & Hs & H).
    apply split_and_pad_ret_inv in Hs.
    apply embed_partials_ret_inv
      in H as (forward & batch & Hm & Hb & _ & _ & Hres).
    cbv zeta in Hres. destruct return_partials; [|discriminate Hres].
    injection Hres as _ -> ->.
    exists (forward batch), slices. split; [reflexivity|]. split; [reflexivity|].
    rewrite (Hshape forward batch Hm), Hb, length_map.
    unfold compute_partial_slices_kw in Hs.
    destruct (returned_plan _ _ _ _ _ _ Hs) as (m & _ & -> & ->).
    rewrite !length_map. reflexivity.
  - left. split; [reflexivity|].
    unfold embed_whole in H.
    rewrite (bindM_run _ _ _ _ _ (call_wav_to_mel_filterbank_run _ _ _)) in H.
    unfold embed_frames_batch in H.
    destruct _model as [forward|];
      unfold bindM, liftM, emit, retM, raiseM in H; simpl in H;
      [|discriminate H].
    destruct (forward [wav_to_mel_filterbank (nth wav (heap st) [])])
      as [|e0 rest]; simpl in H; [discriminate H|].
    destruct return_partials; [|discriminate H].
    injection H as _ <- <- _. split; reflexivity.
Qed.

Lemma result_partials_paired_witness :
  let mel : waveform -> spectrogram := fun _ => [[3%R; 4%R]] in
  let fwd : list spectrogram -> list embedding := map (fun s => hd [] s) in
  let kw := mkkwargs (Some 1) None None in
  let st := mkstate [[1%R; 2%R; 3%R]] [] in
  exists e pe ws st',
    embed_utterance mel (Some fwd) 0%nat true true kw st
    = (ret (EmbedPartials e pe ws), st') /\
    ((true = false /\ pe = None /\ ws = None) \/
     (true = true /\
      exists partial_embeds wave_slices,
        pe = Some partial_embeds /\ ws = Some wave_slices /\
        length partial_embeds = length wave_slices)).
Proof.
  intros mel fwd kw st.
  assert (Hc : compute_partial_slices_kw
                 (Z.of_nat (length (nth 0%nat (heap st) []))) kw
               = ret ([mkslice 0 160], [mkslice 0 1]))
    by (vm_compute; reflexivity).
  assert (Hl : getitem_last [mkslice 0 160] = ret (mkslice 0 160))
    by reflexivity.
  assert (Hs : forall forward b,
             Some fwd = Some forward -> length (forward b) = length b).
  { intros forward b H. injection H as <-. apply length_map. }
  destruct (embed_utterance_partials_returns mel fwd 0%nat true kw st
              [mkslice 0 160] [mkslice 0 1] (mkslice 0 160) [[[3%R; 4%R]]]
              Hc Hl eq_refl) as [st' Hrun].
  cbv zeta in Hrun. cbv iota in Hrun.
  do 3 eexists. exists st'. split; [exact Hrun|].
  exact (result_partials_paired mel (Some fwd) 0%nat true true kw st st' _ _ _
           Hs Hrun).
Defined.

(** * Further properties of [compute_partial_slices] *)
























(** * Further properties of [embed_utterance] *)

Section EncoderMore.
Variable wav_to_mel_filterbank : waveform -> spectrogram.
Variable _model : option (list spectrogram -> list embedding).

(** On the partial-utterance path an exception of [compute_partial_slices]
    ends the run at once. *)
Lemma partial_path_slices_raise (wav : loc) (rp : bool) (kw : kwargs)
    (st : state) (e : exn) :
  let n := Z.of_nat (length (nth wav (heap st) [])) in
  compute_partial_slices_kw n kw = raise e ->
  embed_utterance wav_to_mel_filterbank _model wav true rp kw st
  = (raise e, mkstate (heap st) (trace st ++ [CallComputePartialSlices n kw])).
Proof.
  intros n H.
  unfold embed_utterance. change (negb true) with false. cbv iota.
  unfold split_and_pad, py_len, bindM, liftM, deref, emit, retM. simpl.
  fold n. rewrite H. reflexivity.
Qed.

(** The run of the partial-utterance path up to the call of the feature
    extractor, when [compute_partial_slices] returns. *)
Lemma partial_path_run (wav : loc) (rp : bool) (kw : kwargs) (st : state)
    (ws ms : list slice) (last : slice) :
  let w := nth wav (heap st) [] in
  let n := Z.of_nat (length w) in
  let handed := if n <=? stop last
                then w ++ repeat 0%R (Z.to_nat (stop last - n)) else w in
  compute_partial_slices_kw n kw = ret (ws, ms) ->
  getitem_last ws = ret last ->
  exists out st' pre post,
    embed_utterance wav_to_mel_filterbank _model wav true rp kw st = (out, st') /\
    trace st' = trace st ++ pre ++ CallWavToMel handed :: post /\
    (forall x, ~ In (CallWavToMel x) pre) /\
    (forall x, ~ In (CallWavToMel x) post).
Proof.
  intros w n handed Hc Hl.
  pose proof (split_and_pad_run wav kw st ws ms last Hc Hl) as Hs.
  fold w in Hs. fold n in Hs.
  unfold embed_utterance. change (negb true) with false. cbv iota.
  unfold handed. clear handed.
  destruct (n <=? stop last) eqn:E; rewrite (bindM_run _ _ _ _ _ Hs);
    cbv beta iota.
  - set (st1 := mkstate _ _).
    destruct (embed_partials_run wav_to_mel_filterbank _model (length (heap st))
                ws ms rp st1) as (out & post & Hrun & Hpost).
    unfold st1 in Hrun. cbn [heap trace] in Hrun. rewrite nth_middle in Hrun.
    eexists. eexists.
    exists [CallComputePartialSlices n kw; CallPad w (stop last - n)], post.
    split; [exact Hrun|]. cbn [trace].
    split; [rewrite <- app_assoc; reflexivity|].
    split; [intros x [H|[H|[]]]; discriminate H|exact Hpost].
  - set (st1 := mkstate _ _).
    destruct (embed_partials_run wav_to_mel_filterbank _model wav
                ws ms rp st1) as (out & post & Hrun & Hpost).
    unfold st1 in Hrun. cbn [heap trace] in Hrun. fold w in Hrun.
    eexists. eexists. exists [CallComputePartialSlices n kw], post.
    split; [exact Hrun|]. cbn [trace].
    split; [rewrite <- app_assoc; reflexivity|].
    split; [intros x [H|[]]; discriminate H|exact Hpost].
Qed.
End EncoderMore.

(** On the partial-utterance path, an [overlap] outside [[0,1)] or a
    [min_pad_coverage] outside [(0,1]] among the keyword arguments makes
    [embed_utterance] raise [AssertionError] before the feature extractor
    or the model is called and before anything is allocated, whether or
    not the model is loaded. *)
Theorem partial_path_invalid_kwargs
    (wav_to_mel_filterbank : waveform -> spectrogram)
    (_model : option (list spectrogram -> list embedding))
    (wav : loc) (return_partials : bool) (kw : kwargs) (st : state) :
  ~ (0 <= or_default (kw_overlap kw) default_overlap < 1)%Q
  \/ ~ (0 < or_default (kw_min_pad_coverage kw) default_min_pad_coverage <= 1)%Q ->
  embed_utterance wav_to_mel_filterbank _model wav true return_partials kw st
  = (raise AssertionError,
     mkstate (heap st)
       (trace st ++ [CallComputePartialSlices
                       (Z.of_nat (length (nth wav (heap st) []))) kw])).
Proof.
  intros H. apply partial_path_slices_raise.
  unfold compute_partial_slices_kw, compute_partial_slices.
  apply compute_partial_slices_cfg_invalid. exact H.
Qed.

Lemma partial_path_invalid_kwargs_witness :
  let mel : waveform -> spectrogram := fun w => [w] in
  let kw := mkkwargs None None (Some 1%Q) in
  let st := mkstate [[1%R; 2%R; 3%R]] [] in
  (~ (0 <= 1 < 1)%Q \/ ~ (0 < default_min_pad_coverage <= 1)%Q) /\
  embed_utterance mel None 0%nat true false kw st
  = (raise AssertionError,
     mkstate (heap st)
       (trace st ++ [CallComputePartialSlices
                       (Z.of_nat (length (nth 0%nat (heap st) []))) kw])).
Proof.
  intros mel kw st.
  assert (H : ~ (0 <= 1 < 1)%Q \/ ~ (0 < default_min_pad_coverage <= 1)%Q)
    by (left; intros [_ H]; lra).
  split; [exact H|].
  exact (partial_path_invalid_kwargs mel None 0%nat false kw st H).
Defined.

(** Without a loaded model [embed_utterance] never returns an embedding,
    on either path; on the whole-utterance path the exception is the one of
    [embed_frames_batch]. *)
Theorem unloaded_model_never_returns
    (wav_to_mel_filterbank : waveform -> spectrogram)
    (wav : loc) (using_partials return_partials : bool) (kw : kwargs)
    (st : state) :
  (exists e st',
     embed_utterance wav_to_mel_filterbank None wav using_partials
       return_partials kw st = (raise e, st')) /\
  (using_partials = false ->
   exists st',
     embed_utterance wav_to_mel_filterbank None wav using_partials
       return_partials kw st = (raise ModelNotLoaded, st')).
Proof.
  split.
  - destruct (embed_utterance wav_to_mel_filterbank None wav using_partials
                return_partials kw st) as [[e|res] st'] eqn:H.
    + exists e, st'. reflexivity.
    + exfalso. unfold embed_utterance in H.
      destruct using_partials; cbn [negb] in H; cbv iota in H.
      * apply bindM_ret_inv in H as ([[wav' ws] ms] & st1 & _ & H).
        apply embed_partials_ret_inv in H as (forward & _ & Hm & _).
        discriminate Hm.
      * unfold embed_whole in H.
        rewrite (bindM_run _ _ _ _ _ (call_wav_to_mel_filterbank_run _ _ _)) in H.
        discriminate H.
  - intros ->. unfold embed_utterance. change (negb false) with true. cbv iota.
    unfold embed_whole.
    rewrite (bindM_run _ _ _ _ _ (call_wav_to_mel_filterbank_run _ _ _)).
    eexists. reflexivity.
Qed.

Section ReturnPartials.
Variable wav_to_mel_filterbank : waveform -> spectrogram.
Variable _model : option (list spectrogram -> list embedding).

Lemma embed_partials_both (wav : loc) (ws ms : list slice) (st : state) :
  exists st',
    (exists e, forall rp,
       embed_partials wav_to_mel_filterbank _model wav ws ms rp st
       = (raise e, st')) \/
    (exists emb pe,
       embed_partials wav_to_mel_filterbank _model wav ws ms false st
       = (ret (Embed emb), st') /\
       embed_partials wav_to_mel_filterbank _model wav ws ms true st
       = (ret (EmbedPartials emb (Some pe) (Some ws)), st')).
Proof.
  unfold embed_partials.
  set (frames := wav_to_mel_filterbank (nth wav (heap st) [])).
  destruct (np_array (map (getslice frames) ms)) as [e|batch] eqn:Hb.
  - eexists. left. exists e. intros rp.
    rewrite (bindM_run _ _ _ _ _ (call_wav_to_mel_filterbank_run _ wav st)).
    fold frames. unfold_ops. rewrite Hb. reflexivity.
  - destruct _model as [forward|] eqn:Hm.
    + eexists. right. eexists. eexists.
      split;
        rewrite (bindM_run _ _ _ _ _ (call_wav_to_mel_filterbank_run _ wav st));
        fold frames; unfold_ops; rewrite Hb; reflexivity.
    + eexists. left. exists ModelNotLoaded. intros rp.
      rewrite (bindM_run _ _ _ _ _ (call_wav_to_mel_filterbank_run _ wav st)).
      fold frames. unfold_ops. rewrite Hb. reflexivity.
Qed.

Lemma embed_whole_both (wav : loc) (st : state) :
  exists st',
    (exists e, forall rp,
       embed_whole wav_to_mel_filterbank _model wav rp st = (raise e, st')) \/
    (exists emb,
       embed_whole wav_to_mel_filterbank _model wav false st
       = (ret (Embed emb), st') /\
       embed_whole wav_to_mel_filterbank _model wav true st
       = (ret (EmbedPartials emb None None), st')).
Proof.
  unfold embed_whole.
  set (frames := wav_to_mel_filterbank (nth wav (heap st) [])).
  destruct _model as [forward|] eqn:Hm.
  - destruct (forward [frames]) as [|e0 rest] eqn:F.
    + eexists. left. exists IndexError. intros rp.
      rewrite (bindM_run _ _ _ _ _ (call_wav_to_mel_filterbank_run _ wav st)).
      fold frames. unfold_ops. rewrite F. reflexivity.
    + eexists. right. exists e0.
      split;
        rewrite (bindM_run _ _ _ _ _ (call_wav_to_mel_filterbank_run _ wav st));
        fold frames; unfold_ops; rewrite F; reflexivity.
  - eexists. left. exists ModelNotLoaded. intros rp.
    rewrite (bindM_run _ _ _ _ _ (call_wav_to_mel_filterbank_run _ wav st)).
    fold frames. unfold_ops. reflexivity.
Qed.
End ReturnPartials.

(** [return_partials] only adds outputs: with and without it a call of
    [embed_utterance] makes the same calls, leaves the same store, raises
    the same exception or returns the same embedding. *)
Theorem return_partials_only_adds
    (wav_to_mel_filterbank : waveform -> spectrogram)
    (_model : option (list spectrogram -> list embedding))
    (wav : loc) (using_partials : bool) (kw : kwargs) (st : state) :
  exists st',
    (exists e, forall rp,
       embed_utterance wav_to_mel_filterbank _model wav using_partials rp kw st
       = (raise e, st')) \/
    (exists emb pe ws,
       embed_utterance wav_to_mel_filterbank _model wav using_partials false kw st
       = (ret (Embed emb), st') /\
       embed_utterance wav_to_mel_filterbank _model wav using_partials true kw st
       = (ret (EmbedPartials emb pe ws), st')).
Proof.
  unfold embed_utterance. destruct using_partials; cbn [negb]; cbv iota.
  - destruct (split_and_pad wav kw st) as [[e|[[wav' ws] ms]] st1] eqn:Hs.
    + exists st1. left. exists e. intros rp. unfold bindM. rewrite Hs. reflexivity.
    + destruct (embed_partials_both wav_to_mel_filterbank _model wav' ws ms st1)
        as (st' & [(e & He)|(emb & pe & H1 & H2)]).
      * exists st'. left. exists e. intros rp.
        rewrite (bindM_run _ _ _ _ _ Hs). apply He.
      * exists st'. right. exists emb, (Some pe), (Some ws).
        rewrite !(bindM_run _ _ _ _ _ Hs). split; assumption.
  - destruct (embed_whole_both wav_to_mel_filterbank _model wav st)
      as (st' & [(e & He)|(emb & H1 & H2)]).
    + exists st'. left. exists e. exact He.
    + exists st'. right. exists emb, None, None. split; assumption.
Qed.

(** Every waveform slice of the plan lies within the waveform handed to the
    feature extractor, whose length is the larger of the caller's length
    and the last stop offset: indexing it with a slice never runs past its
    end. *)
Theorem slices_within_padded_waveform
    (wav_to_mel_filterbank : waveform -> spectrogram)
    (_model : option (list spectrogram -> list embedding))
    (wav : loc) (return_partials : bool) (kw : kwargs) (st : state)
    (ws ms : list slice) :
  let n := Z.of_nat (length (nth wav (heap st) [])) in
  compute_partial_slices_kw n kw = ret (ws, ms) ->
  exists out st' handed last,
    embed_utterance wav_to_mel_filterbank _model wav true return_partials kw st
    = (out, st') /\
    In (CallWavToMel handed) (trace st') /\
    getitem_last ws = ret last /\
    Z.of_nat (length handed) = Z.max n (stop last) /\
    Forall (fun s => 0 <= start s /\ stop s <= Z.of_nat (length handed)) ws.
Proof.
  intros n Hc.
  unfold compute_partial_slices_kw in Hc.
  destruct (returned_plan _ _ _ _ _ _ Hc) as (m & Hm & Hws & Hms).
  destruct m as [|m']; [lia|].
  set (p := or_default (kw_partial_utterance_n_frames kw) partials_n_frames) in *.
  set (fs := frame_step_of p _) in *.
  assert (Hl : getitem_last ws = ret (wav_at samples_per_frame p fs m'))
    by (rewrite Hws; apply getitem_last_snoc_map).
  destruct (partial_path_run wav_to_mel_filterbank _model wav return_partials
              kw st ws ms _ Hc Hl) as (out & st' & pre & post & Hrun & Ht & _).
  fold n in Ht.
  set (last := wav_at samples_per_frame p fs m') in *.
  set (handed := if n <=? stop last then _ else _) in Ht.
  exists out, st', handed, last.
  split; [exact Hrun|].
  split; [rewrite Ht; apply in_or_app; right; apply in_or_app; right;
          left; reflexivity|].
  split; [exact Hl|].
  assert (Hlen : Z.of_nat (length handed) = Z.max n (stop last)).
  { unfold handed. destruct (n <=? stop last) eqn:E.
    - apply Z.leb_le in E. rewrite length_app, repeat_length. fold n. lia.
    - apply Z.leb_gt in E. fold n. lia. }
  split; [exact Hlen|].
  rewrite Hlen, Hws. apply Forall_forall. intros s Hin.
  apply in_map_iff in Hin as (k & <- & Hk). apply in_seq in Hk.
  pose proof samples_per_frame_pos as Hs.
  pose proof (frame_step_of_pos p
                (or_default (kw_overlap kw) default_overlap)) as Hf.
  fold fs in Hf.
  unfold last, wav_at. cbn [start stop].
  assert (H1 : Z.of_nat k * fs <= Z.of_nat m' * fs) by nia.
  assert (H2 : (Z.of_nat k * fs + p) * samples_per_frame
               <= (Z.of_nat m' * fs + p) * samples_per_frame) by nia.
  split; [nia|lia].
Qed.

Lemma slices_within_padded_waveform_witness :
  let mel : waveform -> spectrogram := fun _ => [[3%R; 4%R]] in
  let fwd : list spectrogram -> list embedding := map (fun s => hd [] s) in
  let kw := mkkwargs (Some 1) None None in
  let st := mkstate [[1%R; 2%R; 3%R]] [] in
  let ws := [mkslice 0 160] in
  compute_partial_slices_kw (Z.of_nat (length (nth 0%nat (heap st) []))) kw
  = ret (ws, [mkslice 0 1]) /\
  exists out st' handed last,
    embed_utterance mel (Some fwd) 0%nat true false kw st = (out, st') /\
    In (CallWavToMel handed) (trace st') /\
    getitem_last ws = ret last /\
    Z.of_nat (length handed)
    = Z.max (Z.of_nat (length (nth 0%nat (heap st) []))) (stop last) /\
    Forall (fun s => 0 <= start s /\ stop s <= Z.of_nat (length handed)) ws.
Proof.
  intros mel fwd kw st ws.
  assert (H : compute_partial_slices_kw
                (Z.of_nat (length (nth 0%nat (heap st) []))) kw
              = ret (ws, [mkslice 0 1]))
    by (vm_compute; reflexivity).
  split; [exact H|].
  exact (slices_within_padded_waveform mel (Some fwd) 0%nat false kw st
           ws [mkslice 0 1] H).
Defined.

(** ** Order of the partial embeddings *)

Lemma Rsum_perm (xs ys : list R) : Permutation xs ys -> Rsum xs = Rsum ys.
Proof.
  induction 1 as [|x xs ys _ IH|x y xs|xs ys zs _ IH1 _ IH2]; simpl.
  - reflexivity.
  - rewrite IH. reflexivity.
  - ring.
  - rewrite IH1. exact IH2.
Qed.

(** The mean over the partial embeddings, and so the utterance embedding,
    does not depend on their order: for rows of one length, permuting the
    rows leaves [np.mean(a, axis=0)] and its normalized value unchanged. *)
Theorem mean_order_independent (a b : list embedding) (d : nat) :
  Permutation a b ->
  Forall (fun row => length row = d) a ->
  mean_axis0 a = mean_axis0 b /\
  array_div (mean_axis0 a) (linalg_norm (mean_axis0 a))
  = array_div (mean_axis0 b) (linalg_norm (mean_axis0 b)).
Proof.
  intros Hp Ha.
  assert (Hb : Forall (fun row => length row = d) b).
  { apply Forall_forall. intros r Hr. rewrite Forall_forall in Ha.
    apply Ha. apply (Permutation_in r (Permutation_sym Hp) Hr). }
  assert (H : mean_axis0 a = mean_axis0 b).
  { unfold mean_axis0.
    rewrite (Permutation_length Hp).
    assert (Hd : length (hd [] a) = length (hd [] b)).
    { destruct a as [|ra a']; destruct b as [|rb b'].
      - reflexivity.
      - apply Permutation_nil in Hp. discriminate Hp.
      - apply Permutation_sym, Permutation_nil in Hp. discriminate Hp.
      - simpl. inversion Ha; inversion Hb; subst. congruence. }
    rewrite Hd. apply map_ext. intros j.
    rewrite (Rsum_perm _ _ (Permutation_map (fun row => nth j row 0%R) Hp)).
    reflexivity. }
  split; [exact H|]. rewrite H. reflexivity.
Qed.

Lemma mean_order_independent_witness :
  let a := [[1%R; 2%R]; [3%R; 4%R]] in
  let b := [[3%R; 4%R]; [1%R; 2%R]] in
  (Permutation a b /\ Forall (fun row => length row = 2%nat) a) /\
  mean_axis0 a = mean_axis0 b /\
  array_div (mean_axis0 a) (linalg_norm (mean_axis0 a))
  = array_div (mean_axis0 b) (linalg_norm (mean_axis0 b)).
Proof.
  intros a b.
  assert (H1 : Permutation a b) by apply perm_swap.
  assert (H2 : Forall (fun row => length row = 2%nat) a)
    by (repeat constructor).
  split; [split; [exact H1|exact H2]|].
  exact (mean_order_independent a b 2 H1 H2).
Defined.

(** * [load_model] and [is_loaded] *)

Section LoadingFacts.
Variables (E StateDict Encoder : Type).
Variable torch_cuda_is_available : bool.
Variable torch_device : String.string -> E + device.
Variable SpeakerEncoder : device -> device -> E + Encoder.
Variable torch_load : String.string -> E + list (String.string * StateDict).
Variable load_state_dict : Encoder -> StateDict -> option E * Encoder.
Variable eval : Encoder -> Encoder.


(** [_model] is assigned before the weights are read: when the encoder
    was constructed but [torch.load] raises, or the checkpoint has no
    ["model_state"], [load_model] raises and yet leaves [_model] set to the
    encoder as constructed; [is_loaded()] is then true, and
    [embed_frames_batch] runs that encoder instead of raising. *)
Theorem failed_load_leaves_model_set (d cpu : device)
    (weights_fpath : String.string)
    (device : device_arg) (g : globals Encoder) (m : Encoder)
    (forward : Encoder -> list spectrogram -> list embedding) :
  match device with
  | DeviceNone => torch_device (if torch_cuda_is_available
                                then "cuda"%string else "cpu"%string)
  | DeviceStr name => torch_device name
  | DeviceObj d0 => inr d0
  end = inr d ->
  torch_device "cpu"%string = inr cpu ->
  SpeakerEncoder d cpu = inr m ->
  (exists e, torch_load weights_fpath = inl e) \/
  (exists ck, torch_load weights_fpath = inr ck
              /\ dict_get "model_state"%string ck = None) ->
  let r := load_model E StateDict Encoder torch_cuda_is_available torch_device
             SpeakerEncoder torch_load load_state_dict eval
             weights_fpath device g in
  (exists err, fst r = inl err) /\
  snd r = mkglobals Encoder (Some m) (Some d) /\
  is_loaded Encoder (snd r) = true /\
  forall frames_batch st,
    embed_frames_batch (option_map forward (g_model Encoder (snd r)))
      frames_batch st
    = (ret (forward m frames_batch),
       mkstate (heap st) (trace st ++ [CallForward frames_batch])).
Proof.
  intros Hd Hcpu Hm Hl. cbv zeta. unfold load_model.
  rewrite Hd, Hcpu, Hm.
  destruct Hl as [[e He]|(ck & Hck & Hk)].
  - rewrite He. cbn [fst snd].
    split; [eexists; reflexivity|]. split; [reflexivity|].
    split; [reflexivity|]. intros b st. reflexivity.
  - rewrite Hck, Hk. cbn [fst snd].
    split; [eexists; reflexivity|]. split; [reflexivity|].
    split; [reflexivity|]. intros b st. reflexivity.
Qed.
End LoadingFacts.

Lemma failed_load_leaves_model_set_witness :
  let torch_device : String.string -> unit + device := fun s => inr (Device s) in
  let new_encoder : device -> device -> unit + nat := fun _ _ => inr 0%nat in
  let torch_load : String.string -> unit + list (String.string * nat) :=
    fun _ => inl tt in
  let load_state_dict : nat -> nat -> option unit * nat :=
    fun _ w => (None, w) in
  let forward : nat -> list spectrogram -> list embedding :=
    fun _ b => map (fun s => hd [] s) b in
  let r := load_model unit nat nat false torch_device new_encoder torch_load
             load_state_dict (fun m => m) "all.pt"%string DeviceNone
             (initial_globals nat) in
  (exists err, fst r = inl err) /\
  snd r = mkglobals nat (Some 0%nat) (Some (Device "cpu"%string)) /\
  is_loaded nat (snd r) = true /\
  forall frames_batch st,
    embed_frames_batch (option_map forward (g_model nat (snd r)))
      frames_batch st
    = (ret (forward 0%nat frames_batch),
       mkstate (heap st) (trace st ++ [CallForward frames_batch])).
Proof.
  intros torch_device new_encoder torch_load load_state_dict forward.
  exact (failed_load_leaves_model_set unit nat nat false torch_device
           new_encoder torch_load load_state_dict (fun m => m)
           (Device "cpu"%string) (Device "cpu"%string) "all.pt"%string
           DeviceNone (initial_globals nat) 0%nat forward
           eq_refl eq_refl eq_refl (or_introl (ex_intro _ tt eq_refl))).
Defined.

(** * When the partial-utterance path returns *)




